(** * Persistent cookie jar: the save / load / merge / lock protocol

    A shallow embedding of [serialize.go] (package [cookiejar]) and the
    properties of its persistence protocol.

    Go strings are byte strings: they are modelled by [string], whose
    characters are the 256 byte values.  Instants ([time.Time]) are
    integers.  The standard-library calls the file makes ([crypto/sha256],
    [encoding/base64], [regexp], [sort], [encoding/json], [os]) are modelled
    next to the function that calls them. *)

From Stdlib Require Import ZArith Ascii String List Permutation Sorted Lia.
From Stdlib Require Import DecimalString DecimalZ OrderedTypeEx.
From stdpp Require Import base option list strings gmap fin_maps sorting.

Local Open Scope string_scope.
Local Open Scope Z_scope.

(** ** Errors

    The error kinds of the protocol.  A Go [error] carries a message; the
    message is kept where the code builds one. *)

Inductive error : Type :=
  | InvalidInput (msg : string)
  | LockTimeout (cause : string)
  | IOFailure (msg : string)
  | DecodeFailure (msg : string).

Inductive result (A : Type) : Type :=
  | Ok (a : A)
  | Err (e : error).
Arguments Ok {A} a.
Arguments Err {A} e.

(** ** Bytes of a string *)

Definition byte_of_ascii (c : ascii) : Z := Z.of_N (N_of_ascii c).

Fixpoint bytes_of_string (s : string) : list Z :=
  match s with
  | EmptyString => []
  | String c s' => byte_of_ascii c :: bytes_of_string s'
  end.

(** ** [crypto/sha256]: SHA-256 (FIPS 180-4) over 32-bit words held in [Z] *)

Module SHA256.

Definition w32 (x : Z) : Z := x mod 2 ^ 32.
Definition add32 (x y : Z) : Z := w32 (x + y).
Definition rotr (n x : Z) : Z :=
  Z.lor (Z.shiftr x n) (w32 (Z.shiftl x (32 - n))).
Definition not32 (x : Z) : Z := Z.lxor x 0xffffffff.

Definition Ch (x y z : Z) : Z := Z.lxor (Z.land x y) (Z.land (not32 x) z).
Definition Maj (x y z : Z) : Z :=
  Z.lxor (Z.lxor (Z.land x y) (Z.land x z)) (Z.land y z).
Definition bsig0 (x : Z) : Z := Z.lxor (Z.lxor (rotr 2 x) (rotr 13 x)) (rotr 22 x).
Definition bsig1 (x : Z) : Z := Z.lxor (Z.lxor (rotr 6 x) (rotr 11 x)) (rotr 25 x).
Definition ssig0 (x : Z) : Z := Z.lxor (Z.lxor (rotr 7 x) (rotr 18 x)) (Z.shiftr x 3).
Definition ssig1 (x : Z) : Z := Z.lxor (Z.lxor (rotr 17 x) (rotr 19 x)) (Z.shiftr x 10).

(** The round constants are the first 32 bits of the fractional parts of
    the cube roots of the first 64 primes, the initial chaining value those
    of the square roots of the first 8. *)
Definition prime (n : Z) : bool :=
  forallb (fun d => negb (n mod d =? 0))
          (map Z.of_nat (seq 2 (Z.to_nat (Z.sqrt n) - 1))).

Definition primes : list Z := List.filter prime (map Z.of_nat (seq 2 310)).

Fixpoint cbrt_bits (k : nat) (n r : Z) : Z :=
  match k with
  | O => r
  | S k' =>
      let c := r + 2 ^ Z.of_nat k' in
      if c * c * c <=? n then cbrt_bits k' n c else cbrt_bits k' n r
  end.

Definition cbrt (n : Z) : Z := cbrt_bits 40 n 0.

Definition K : list Z :=
  Eval vm_compute in map (fun p => w32 (cbrt (p * 2 ^ 96))) primes.

(** The eight working variables, and the chaining value. *)
Record state : Type := State {
  sa : Z; sb : Z; sc : Z; sd : Z; se : Z; sf : Z; sg : Z; sh : Z }.

Definition H0 : state :=
  Eval vm_compute in
    match map (fun p => w32 (Z.sqrt (p * 2 ^ 64))) primes with
    | a :: b :: c :: d :: e :: f :: g :: h :: _ => State a b c d e f g h
    | _ => State 0 0 0 0 0 0 0 0
    end.

(** Padding: a 1 bit, zeros up to 56 modulo 64 bytes, then the bit length
    as a 64-bit big-endian integer. *)
Fixpoint be_bytes (n : nat) (x : Z) : list Z :=
  match n with
  | O => []
  | S n' => Z.shiftr x (8 * Z.of_nat n') mod 256 :: be_bytes n' x
  end.

Definition pad (msg : list Z) : list Z :=
  let len := Z.of_nat (length msg) in
  let zeros := Z.to_nat ((55 - len) mod 64) in
  msg ++ 0x80 :: repeat 0 zeros ++ be_bytes 8 (8 * len).

Fixpoint be_words (fuel : nat) (l : list Z) : list Z :=
  match fuel, l with
  | S fuel', b0 :: b1 :: b2 :: b3 :: l' =>
      (Z.shiftl b0 24 + Z.shiftl b1 16 + Z.shiftl b2 8 + b3) :: be_words fuel' l'
  | _, _ => []
  end.

(** The message schedule, newest word first while it is extended. *)
Fixpoint extend (n : nat) (r : list Z) : list Z :=
  match n with
  | O => r
  | S n' =>
      let w := add32 (add32 (add32 (ssig1 (nth 1 r 0)) (nth 6 r 0))
                            (ssig0 (nth 14 r 0))) (nth 15 r 0) in
      extend n' (w :: r)
  end.

Definition schedule (block : list Z) : list Z :=
  rev (extend 48 (rev (be_words 16 block))).

Definition round (s : state) (kw : Z * Z) : state :=
  let '(k, w) := kw in
  let t1 := add32 (add32 (add32 (add32 (sh s) (bsig1 (se s)))
                                (Ch (se s) (sf s) (sg s))) k) w in
  let t2 := add32 (bsig0 (sa s)) (Maj (sa s) (sb s) (sc s)) in
  State (add32 t1 t2) (sa s) (sb s) (sc s) (add32 (sd s) t1) (se s) (sf s) (sg s).

Definition compress (h : state) (block : list Z) : state :=
  let s := fold_left round (combine K (schedule block)) h in
  State (add32 (sa h) (sa s)) (add32 (sb h) (sb s))
        (add32 (sc h) (sc s)) (add32 (sd h) (sd s))
        (add32 (se h) (se s)) (add32 (sf h) (sf s))
        (add32 (sg h) (sg s)) (add32 (sh h) (sh s)).

Fixpoint blocks (fuel : nat) (h : state) (l : list Z) : state :=
  match fuel, l with
  | S fuel', _ :: _ => blocks fuel' (compress h (firstn 64 l)) (skipn 64 l)
  | _, _ => h
  end.

Definition digest (h : state) : list Z :=
  be_bytes 4 (sa h) ++ be_bytes 4 (sb h) ++ be_bytes 4 (sc h) ++
  be_bytes 4 (sd h) ++ be_bytes 4 (se h) ++ be_bytes 4 (sf h) ++
  be_bytes 4 (sg h) ++ be_bytes 4 (sh h).

(** [h := sha256.New(); h.Write(b); h.Sum(nil)] *)
Definition Sum (msg : list Z) : list Z :=
  let p := pad msg in
  digest (blocks (length p) H0 p).

End SHA256.

(** ** [encoding/base64]: [URLEncoding] (URL-safe alphabet, [=] padding) *)

Module Base64.

Definition alphabet : string :=
  "ABCDEFGHIJKLMNOPQRSTUVWXYZabcdefghijklmnopqrstuvwxyz0123456789-_".

Definition digit (i : Z) : ascii :=
  match String.get (Z.to_nat (i mod 64)) alphabet with
  | Some c => c
  | None => "="%char
  end.

Fixpoint EncodeToString (l : list Z) : string :=
  match l with
  | [] => ""
  | [b0] =>
      String (digit (Z.shiftr b0 2))
        (String (digit (Z.shiftl (Z.land b0 3) 4)) "==")
  | [b0; b1] =>
      String (digit (Z.shiftr b0 2))
        (String (digit (Z.lor (Z.shiftl (Z.land b0 3) 4) (Z.shiftr b1 4)))
           (String (digit (Z.shiftl (Z.land b1 15) 2)) "="))
  | b0 :: b1 :: b2 :: l' =>
      String (digit (Z.shiftr b0 2))
        (String (digit (Z.lor (Z.shiftl (Z.land b0 3) 4) (Z.shiftr b1 4)))
           (String (digit (Z.lor (Z.shiftl (Z.land b1 15) 2) (Z.shiftr b2 6)))
              (String (digit (Z.land b2 63)) (EncodeToString l'))))
  end.

End Base64.

(** ** The lock name of a path *)

(** [re = regexp.MustCompile(`[^a-z0-9A-Z]*`)]: the class of bytes the
    expression does not match. *)
Definition alnum (c : ascii) : bool :=
  let n := byte_of_ascii c in
  ((48 <=? n) && (n <=? 57)) || ((65 <=? n) && (n <=? 90)) ||
  ((97 <=? n) && (n <=? 122)).

Definition letter (c : ascii) : bool :=
  let n := byte_of_ascii c in
  ((65 <=? n) && (n <=? 90)) || ((97 <=? n) && (n <=? 122)).

(** [re.ReplaceAllLiteralString(s, ``)]: every run of bytes outside
    [A-Za-z0-9] is replaced by nothing (the empty matches between two
    alphanumeric bytes are replaced by nothing too).  A byte above 127 is
    never alphanumeric, whether it belongs to a UTF-8 sequence or not. *)
Fixpoint re_ReplaceAllLiteralString (s : string) : string :=
  match s with
  | EmptyString => EmptyString
  | String c s' =>
      if alnum c then String c (re_ReplaceAllLiteralString s')
      else re_ReplaceAllLiteralString s'
  end.

Definition lockNameFromPath (path : string) : result string :=
  if String.eqb path "" then Err (InvalidInput "path cannot be empty")
  else
    let pathBytes := bytes_of_string path in
    let sha := Base64.EncodeToString (SHA256.Sum pathBytes) in
    let path :=
      if (10 <? String.length path)%nat
      then let sliceIndex := (String.length path - 10)%nat in
           substring sliceIndex (String.length path - sliceIndex) path
      else path in
    Ok (re_ReplaceAllLiteralString ("L" ++ substring 0 29 sha ++ path)).

(** [maxRetryDuration = 2 * time.Second], in nanoseconds. *)
Definition maxRetryDuration : Z := 2 * 1000000000.

(** The named locks of the machine, as one call of [lockFile] finds them:
    [None] when [mutex.Acquire] obtains the lock of that name, [Some cause]
    when a competitor holds it until the retry loop gives up, [cause] being
    the failure of the last attempt.  The loop's sleeps and clock readings
    are not part of the model. *)
Definition locks : Type := string -> option string.

Definition lockFile (held : locks) (path : string) : result string :=
  match lockNameFromPath path with
  | Err e => Err e
  | Ok name =>
      match held name with
      | None => Ok name
      | Some cause =>
          Err (LockTimeout ("file locked for too long; giving up: " ++ cause))
      end
  end.

(** *** The retry loop of [lockFile]

    [lockFile] above keeps the outcome of the loop only.  Here the loop runs
    against what its calls return: a call of [mutex.Acquire] obtains the
    lock or fails with an error, and after a failed call
    [time.Since(startTime)] reads a duration, in nanoseconds.  The run
    gives the result of [lockFile] ([None] when the calls listed do not
    bring the loop to its end) and the durations passed to [time.Sleep],
    in order. *)
Inductive attempt : Type :=
  | Acquired
  | Failed (err : string) (since : Z).

(** [retry := 100 * time.Microsecond] *)
Definition initialRetry : Z := 100 * 1000.

Fixpoint retryLoop (name : string) (retry : Z) (calls : list attempt) :
    option (result string) * list Z :=
  match calls with
  | [] => (None, [])
  | Acquired :: _ => (Some (Ok name), [])
  | Failed err total :: calls' =>
      if maxRetryDuration <? total
      then (Some (Err (LockTimeout ("file locked for too long; giving up: " ++ err))), [])
      else
        let remain := maxRetryDuration - total in
        let retry := if remain <? retry then remain else retry in
        let '(r, slept) := retryLoop name retry calls' in
        (r, retry :: slept)
  end.

Definition lockFileRun (path : string) (calls : list attempt) :
    option (result string) * list Z :=
  match lockNameFromPath path with
  | Err e => (Some (Err e), [])
  | Ok name => retryLoop name initialRetry calls
  end.

(** A call that ends the loop: the lock is obtained, or the call fails
    and the clock then reads more than [maxRetryDuration]. *)
Definition ends_loop (a : attempt) : bool :=
  match a with
  | Acquired => true
  | Failed _ total => maxRetryDuration <? total
  end.

(** What [lockFile] returns when the loop ends at the call [a]. *)
Definition verdict (name : string) (a : attempt) : result string :=
  match a with
  | Acquired => Ok name
  | Failed err _ =>
      Err (LockTimeout ("file locked for too long; giving up: " ++ err))
  end.

(** The clock readings of a list of calls. *)
Fixpoint readings (calls : list attempt) : list Z :=
  match calls with
  | [] => []
  | Acquired :: calls' => readings calls'
  | Failed _ total :: calls' => total :: readings calls'
  end.

(** ** Records *)

(** Modelled from the spec: the type [entry] is declared outside
    [serialize.go].  Its fields are the ones the spec lists (name, value,
    domain, path, flag bits, expiry instant, persistence flag, canonical
    group key); [Persistent] is the field [allPersistentEntries] reads. *)
Record entry : Type := Entry {
  Name : string;
  Value : string;
  Domain : string;
  Path : string;
  Secure : bool;
  HttpOnly : bool;
  Persistent : bool;
  Expiry : Z;
  CanonicalGroupKey : string }.

(** ** [encoding/json] *)

(** A JSON value.  A number keeps its literal.  A string is kept byte for
    byte: the library writes a string that is valid UTF-8 so that it reads
    back as written (it would replace bytes that are not valid UTF-8). *)
#[local] Set Warnings "-register-all".
Inductive json : Type :=
  | JNull
  | JBool (b : bool)
  | JNumber (literal : string)
  | JString (s : string)
  | JArray (items : list json)
  | JObject (members : list (string * json)).

(** What a file holds, as [json.Decoder.Decode] classifies it when it
    reads one value from the start of the file. *)
Inductive contents : Type :=
  | Blank                      (* no value before the end: [io.EOF] *)
  | Malformed (msg : string)   (* not the text of a JSON value: an error *)
  | Text (v : json).           (* the text of the value [v] *)

(** [decoder.Decode(&data)] with [data] a [json.RawMessage]. *)
Inductive decoded : Type :=
  | EOF
  | SyntaxError (msg : string)
  | RawMessage (v : json).

Definition decoder_Decode (r : contents) : decoded :=
  match r with
  | Blank => EOF
  | Malformed msg => SyntaxError msg
  | Text v => RawMessage v
  end.

(** An instant is written as a JSON string.  The text [time.Time] writes is
    RFC 3339; the model writes the decimal numeral of the instant, which
    like RFC 3339 reads back as the instant written. *)
Definition time_MarshalJSON (t : Z) : json :=
  JString (NilEmpty.string_of_int (Z.to_int t)).

Definition time_UnmarshalJSON (s : string) : option Z :=
  match NilEmpty.int_of_string s with
  | Some d => Some (Z.of_int d)
  | None => None
  end.

(** Modelled from the spec: the JSON object of a record; its members are
    named after the fields, as [encoding/json] does for a struct without
    tags. *)
Definition entry_MarshalJSON (e : entry) : json :=
  JObject
    [ ("Name", JString (Name e));
      ("Value", JString (Value e));
      ("Domain", JString (Domain e));
      ("Path", JString (Path e));
      ("Secure", JBool (Secure e));
      ("HttpOnly", JBool (HttpOnly e));
      ("Persistent", JBool (Persistent e));
      ("Expiry", time_MarshalJSON (Expiry e));
      ("CanonicalGroupKey", JString (CanonicalGroupKey e)) ].

(** [encoder.Encode(entries)] for [entries []entry]: a nil slice is written
    as [null], any other slice as an array.  The slice that
    [allPersistentEntries] returns is nil exactly when it is empty, since
    it starts nil and only [append] changes it. *)
Definition json_Marshal (entries : list entry) : json :=
  match entries with
  | [] => JNull
  | _ :: _ => JArray (map entry_MarshalJSON entries)
  end.

(** The member of an object that [Unmarshal] stores in a field: the last
    one of that name.  Names are compared exactly (the library also takes a
    name that differs from the field's in letter case only). *)
Fixpoint member (k : string) (ms : list (string * json)) : option json :=
  match ms with
  | [] => None
  | (k', v) :: ms' =>
      match member k ms' with
      | Some v' => Some v'
      | None => if String.eqb k k' then Some v else None
      end
  end.

(** A field keeps its zero value when the member is absent or [null], and
    [Unmarshal] fails when the member has another type than the field. *)
Definition string_field (k : string) (ms : list (string * json)) : option string :=
  match member k ms with
  | None | Some JNull => Some ""
  | Some (JString s) => Some s
  | Some _ => None
  end.

Definition bool_field (k : string) (ms : list (string * json)) : option bool :=
  match member k ms with
  | None | Some JNull => Some false
  | Some (JBool b) => Some b
  | Some _ => None
  end.

Definition time_field (k : string) (ms : list (string * json)) : option Z :=
  match member k ms with
  | None | Some JNull => Some 0
  | Some (JString s) => time_UnmarshalJSON s
  | Some _ => None
  end.

Definition entry_UnmarshalJSON (v : json) : option entry :=
  match v with
  | JNull => Some (Entry "" "" "" "" false false false 0 "")
  | JObject ms =>
      n ← string_field "Name" ms;
      va ← string_field "Value" ms;
      d ← string_field "Domain" ms;
      p ← string_field "Path" ms;
      s ← bool_field "Secure" ms;
      h ← bool_field "HttpOnly" ms;
      pe ← bool_field "Persistent" ms;
      ex ← time_field "Expiry" ms;
      c ← string_field "CanonicalGroupKey" ms;
      Some (Entry n va d p s h pe ex c)
  | _ => None
  end.

(** [json.Unmarshal(data, &entries)]: [null] leaves the slice nil, an array
    is read item by item, any other value is a type error. *)
Definition json_Unmarshal (data : json) : option (list entry) :=
  match data with
  | JNull => Some []
  | JArray items => mapM entry_UnmarshalJSON items
  | _ => None
  end.

(** [sort.Sort]: the library promises a permutation of the slice that is
    ordered by [Less], and no stability.  The model is the insertion sort
    the library runs on a slice of at most 12 items: each item in turn
    moves left past the items it is [less] than. *)
Section Sort.
Context {A : Type} (less : A -> A -> bool).

(** [back] is the ordered prefix, last item first. *)
Fixpoint sink (x : A) (back : list A) : list A :=
  match back with
  | [] => [x]
  | y :: back' => if less x y then y :: sink x back' else x :: back
  end.

Definition sort_Sort (data : list A) : list A :=
  rev (fold_left (fun back x => sink x back) data []).

(** [a] may stand before [b] in a slice ordered by [less]. *)
Definition before (a b : A) : Prop := less b a = false.
End Sort.

(** Go leaves the order in which [range] visits a map unspecified.  A
    [seed] fixes the order of one visit: each item is put at the position
    its seed number names among the items placed so far, so every seed
    gives an ordering of the items and every ordering has a seed. *)
Fixpoint shuffle {A : Type} (seed : list nat) (l : list A) : list A :=
  match l with
  | [] => []
  | x :: l' =>
      let r := shuffle (tl seed) l' in
      let k := (hd 0%nat seed `mod` S (length r))%nat in
      take k r ++ x :: drop k r
  end.

Definition range {V : Type} (seed : list nat) (m : gmap string V) : list (string * V) :=
  shuffle seed (map_to_list m).

(** The visiting orders of one run of the nested loops of
    [allPersistentEntries]: of the outer map, and of each submap. *)
Record order : Type := Order {
  outer : list nat;
  inner : string -> list nat }.

Definition canonical : order := Order [] (fun _ => []).

(** ** The jar *)

(** Modelled from the spec: the type [Jar] is declared outside
    [serialize.go]; the file uses its [filename] and its [entries], a map
    from group key to a submap of records.  The in-process lock [j.mu] has
    no counterpart: one call runs at a time. *)
Record Jar : Type := MkJar {
  filename : string;
  entries : gmap string (gmap string entry) }.

Definition newJar (path : string) : Jar := MkJar path ∅.

(** The records of a jar, in the one order the model of the map has. *)
Definition records (j : Jar) : list entry :=
  flat_map (fun ks => (map_to_list ks.2).*2) (map_to_list (entries j)).

(** The records as one run of the nested loops visits them. *)
Definition visit (o : order) (j : Jar) : list entry :=
  flat_map (fun ks => (range (inner o ks.1) ks.2).*2) (range (outer o) (entries j)).

(** Modelled from the spec: the order [byCanonicalHost] is declared outside
    [serialize.go].  Primary key: the canonical group key, ascending in the
    order of Go strings (byte by byte); secondary key: the length of the
    path, shorter first. *)
Definition byCanonicalHost_Less (a b : entry) : bool :=
  if String.eqb (CanonicalGroupKey a) (CanonicalGroupKey b)
  then (String.length (Path a) <? String.length (Path b))%nat
  else String.ltb (CanonicalGroupKey a) (CanonicalGroupKey b).

Definition allPersistentEntries (o : order) (j : Jar) : list entry :=
  let found :=
    fold_left
      (fun acc ks =>
         fold_left
           (fun acc ie => if Persistent ie.2 then (acc ++ [ie.2])%list else acc)
           (range (inner o ks.1) ks.2) acc)
      (range (outer o) (entries j)) [] in
  sort_Sort byCanonicalHost_Less found.

(** Modelled from the spec: [deleteExpired] is declared outside
    [serialize.go].  It removes the records whose expiry is at or before
    [now]. *)
Definition deleteExpired (now : Z) (j : Jar) : Jar :=
  MkJar (filename j)
        (filter (fun ie => now < Expiry ie.2) <$> entries j).

(** The machine outside the jar: the file of the jar ([None] when there is
    no such file) and the lines the [log] package has printed. *)
Record world : Type := World {
  file : option contents;
  logged : list string }.

(** What the system calls of one [save] or [load] do: the state of the
    named locks, and for each call the error it fails with, if it fails.
    A failed write leaves some part of the text in the file. *)
Record os : Type := OS {
  held : locks;
  open_error : option string;
  truncate_error : option string;
  seek_error : option string;
  write_error : option (string * contents) }.

Definition quiet : os := OS (fun _ => None) None None None None.

(** The records a file holds, as [Decode] and [Unmarshal] read them. *)
Definition contents_records (f : contents) : list entry :=
  match f with
  | Text v => default [] (json_Unmarshal v)
  | _ => []
  end.

Definition snapshot (w : world) : list entry :=
  contents_records (default Blank (file w)).

(** The record a map holds under a group key and a record key. *)
Definition slot (m : gmap string (gmap string entry)) (key id : string) : option entry :=
  m !! key ≫= fun submap => submap !! id.

Section Protocol.

(** Modelled from the spec: the store's rules are its own.  A record is
    identified by its group key and its record key; when a record that is
    merged in meets a resident record of the same identity, the store's
    precedence decides whether it replaces it. *)
Variable record_key : entry -> string.
Variable prefer : entry -> entry -> bool.

Definition store1 (m : gmap string (gmap string entry)) (e : entry) :
    gmap string (gmap string entry) :=
  let key := CanonicalGroupKey e in
  let id := record_key e in
  match m !! key with
  | None => <[key := {[id := e]}]> m
  | Some submap =>
      match submap !! id with
      | None => <[key := <[id := e]> submap]> m
      | Some old =>
          if prefer e old then <[key := <[id := e]> submap]> m else m
      end
  end.

(** Modelled from the spec: [merge] is declared outside [serialize.go]. *)
Definition merge (l : list entry) (j : Jar) : Jar :=
  MkJar (filename j) (fold_left store1 l (entries j)).




(** mergeFrom reads all the cookies from r and stores them in the Jar.
    Returns the error, the jar, and the lines logged. *)
Definition mergeFrom (j : Jar) (r : contents) : result unit * Jar * list string :=
  match decoder_Decode r with
  | EOF => (Ok tt, j, [])
  | SyntaxError msg => (Err (DecodeFailure msg), j, [])
  | RawMessage data =>
      match json_Unmarshal data with
      | None =>
          (Ok tt, j, ["warning: discarding cookies in invalid format"])
      | Some l => (Ok tt, merge l j, [])
      end
  end.

(** writeTo writes all the cookies in the jar to w as a JSON array.
    Returns the error and what the file holds after the write. *)
Definition writeTo (sys : os) (o : order) (j : Jar) : result unit * contents :=
  let l := allPersistentEntries o j in
  match write_error sys with
  | Some (msg, torn) => (Err (IOFailure msg), torn)
  | None => (Ok tt, Text (json_Marshal l))
  end.

(** save is like Save but takes the current time as a parameter. *)
Definition save (now : Z) (sys : os) (o : order) (j : Jar) (w : world) :
    result unit * Jar * world :=
  match lockFile (held sys) (filename j) with
  | Err e => (Err e, j, w)
  | Ok _ =>
      match open_error sys with
      | Some msg => (Err (IOFailure msg), j, w)
      | None =>
          (* O_CREATE: a missing file is created empty *)
          let f := default Blank (file w) in
          let '(merged, j, lines) := mergeFrom j f in
          let lines :=
            match merged with
            | Err _ =>
                (lines ++ ["cannot read cookie file to merge it; ignoring it"])%list
            | Ok _ => lines
            end in
          let j := deleteExpired now j in
          match truncate_error sys with
          | Some msg =>
              (Err (IOFailure ("cannot truncate file: " ++ msg)), j,
               World (Some f) (logged w ++ lines)%list)
          | None =>
              match seek_error sys with
              | Some msg =>
                  (Err (IOFailure msg), j, World (Some Blank) (logged w ++ lines)%list)
              | None =>
                  let '(written, c) := writeTo sys o j in
                  (written, j, World (Some c) (logged w ++ lines)%list)
              end
          end
      end
  end.

(** load loads the cookies from j.filename.  If the file does not exist,
    no error will be returned and no cookies will be loaded. *)
Definition load (sys : os) (j : Jar) (w : world) : result unit * Jar * world :=
  match lockFile (held sys) (filename j) with
  | Err e => (Err e, j, w)
  | Ok _ =>
      match file w with
      | None => (Ok tt, j, w)
      | Some f =>
          match open_error sys with
          | Some msg => (Err (IOFailure msg), j, w)
          | None =>
              let '(merged, j, lines) := mergeFrom j f in
              (merged, j, World (Some f) (logged w ++ lines)%list)
          end
      end
  end.

(** The store's own way of adding a record (outside this layer): the
    record takes the place of whatever its identity held. *)
Definition put (e : entry) (j : Jar) : Jar :=
  MkJar (filename j)
        (<[CanonicalGroupKey e :=
             <[record_key e := e]> (default ∅ (entries j !! CanonicalGroupKey e))]>
           (entries j)).

End Protocol.

(** The lock name as the spec words it: [L], then the first 29 characters
    of the URL-safe base64 text of the SHA-256 hash of the path, then the
    last 10 characters of the path, non-alphanumeric characters removed.
    A character is a byte of the Go string. *)
Definition first_chars (n : nat) (s : string) : string := substring 0 n s.

Definition last_chars (n : nat) (s : string) : string :=
  substring (String.length s - n) n s.

Definition strip_non_alphanumeric (s : string) : string :=
  string_of_list_ascii (List.filter alnum (list_ascii_of_string s)).

Definition lock_name_spec (path : string) : string :=
  strip_non_alphanumeric
    ("L" ++ first_chars 29 (Base64.EncodeToString (SHA256.Sum (bytes_of_string path)))
         ++ last_chars 10 path).

Fixpoint string_forall (P : ascii -> bool) (s : string) : bool :=
  match s with
  | EmptyString => true
  | String c s' => P c && string_forall P s'
  end.

Definition starts_with_letter (s : string) : bool :=
  match s with
  | EmptyString => false
  | String c _ => letter c
  end.

(** The serialization order as the spec words it: canonical group key
    ascending, then path length ascending. *)
Definition in_order (a b : entry) : Prop :=
  String_as_OT.lt (CanonicalGroupKey a) (CanonicalGroupKey b) \/
  (CanonicalGroupKey a = CanonicalGroupKey b /\
   (String.length (Path a) <= String.length (Path b))%nat).

(** Sample data for the closed statements below. *)
Definition name_key (e : entry) : string := Domain e ++ ";" ++ Path e ++ ";" ++ Name e.
Definition newer_wins (e old : entry) : bool := true.
Definition cookie_path : string := "/home/gopher/.cookies".
Definition cookieX : entry :=
  Entry "x" "1" "example.com" "/" false false true 100 "example.com".
Definition cookieY : entry :=
  Entry "y" "2" "example.com" "/a" false true true 200 "example.com".
Definition cookieZ : entry :=
  Entry "z" "3" "example.com" "/b" false true true 200 "example.com".
Definition cookieOld : entry :=
  Entry "old" "0" "example.org" "/" false false true 5 "example.org".
Definition cookieSession : entry :=
  Entry "sid" "s" "example.org" "/" true true false 500 "example.org".
Definition one_visit : order := Order [] (fun _ => [0%nat]).
Definition other_visit : order := Order [] (fun _ => [1%nat]).
Definition no_file : world := World None [].
Definition garbled : world := World (Some (Malformed "invalid character")) [].
Definition jarA : Jar :=
  put name_key cookieSession
    (put name_key cookieOld (put name_key cookieX (newJar cookie_path))).
Definition jarYZ : Jar :=
  put name_key cookieZ (put name_key cookieY (newJar cookie_path)).


(** One save of a jar with an expired, a session and a live record. *)
Definition runS : result unit * Jar * world :=
  save name_key newer_wins 10 quiet canonical jarA no_file.

(** A lock held for the whole period: three failed calls, the clock
    reading 0.5 s, 50 microseconds short of 2 s, and 1 ns past 2 s. *)
Definition busy_calls : list attempt :=
  [ Failed "lock busy" 500000000; Failed "lock busy" 1999950000;
    Failed "lock busy" 2000000001 ].


(** * Properties *)

(** ** The lock name *)

Lemma substring_all (s : string) (n : nat) :
  (String.length s <= n)%nat -> substring 0 n s = s.
Proof.
  revert n. induction s as [|c s IH]; intros [|n] Hn; simpl in *; try reflexivity; try lia.
  f_equal. apply IH. lia.
Qed.

Lemma strip_is_filter (s : string) :
  re_ReplaceAllLiteralString s = strip_non_alphanumeric s.
Proof.
  unfold strip_non_alphanumeric.
  induction s as [|c s IH]; simpl; [reflexivity|].
  destruct (alnum c); simpl; rewrite IH; reflexivity.
Qed.

Lemma strip_alnum (s : string) :
  string_forall alnum (re_ReplaceAllLiteralString s) = true.
Proof.
  induction s as [|c s IH]; simpl; [reflexivity|].
  destruct (alnum c) eqn:Hc; simpl; [rewrite Hc|]; exact IH.
Qed.

Lemma digest_length (h : SHA256.state) : length (SHA256.digest h) = 32%nat.
Proof. reflexivity. Qed.

Lemma Sum_length (msg : list Z) : length (SHA256.Sum msg) = 32%nat.
Proof. unfold SHA256.Sum. apply digest_length. Qed.

Lemma EncodeToString_length (l : list Z) :
  String.length (Base64.EncodeToString l) = (4 * ((length l + 2) / 3))%nat.
Proof.
  assert (H : forall n (l : list Z), (length l <= n)%nat ->
            String.length (Base64.EncodeToString l) = (4 * ((length l + 2) / 3))%nat).
  { clear l. induction n as [|n IH]; intros l Hl.
    - destruct l; [reflexivity | simpl in Hl; lia].
    - destruct l as [|b0 [|b1 [|b2 l]]]; try reflexivity.
      cbn [Base64.EncodeToString String.length length].
      rewrite IH by (simpl in Hl; lia).
      replace (S (S (S (length l))) + 2)%nat with ((length l + 2) + 1 * 3)%nat by lia.
      rewrite Nat.div_add by lia. lia. }
  apply (H (length l)). lia.
Qed.

Lemma sha_text_length (path : string) :
  String.length (Base64.EncodeToString (SHA256.Sum (bytes_of_string path))) = 44%nat.
Proof. rewrite EncodeToString_length, Sum_length. reflexivity. Qed.

Lemma substring_length (s : string) (n : nat) :
  (n <= String.length s)%nat -> String.length (substring 0 n s) = n.
Proof.
  revert n. induction s as [|c s IH]; intros [|n] Hn; simpl in *; try reflexivity; try lia.
  f_equal. apply IH. lia.
Qed.

Lemma last_chars_slice (path : string) :
  (if (10 <? String.length path)%nat
   then substring (String.length path - 10)
          (String.length path - (String.length path - 10)) path
   else path) = last_chars 10 path.
Proof.
  unfold last_chars. destruct (10 <? String.length path)%nat eqn:Hlen.
  - apply Nat.ltb_lt in Hlen. f_equal. lia.
  - apply Nat.ltb_ge in Hlen.
    replace (String.length path - 10)%nat with 0%nat by lia.
    symmetry. apply substring_all. exact Hlen.
Qed.

Lemma strip_keeps_L (s : string) :
  re_ReplaceAllLiteralString ("L" ++ s) = String "L" (re_ReplaceAllLiteralString s).
Proof. reflexivity. Qed.

(** C6.  [lockNameFromPath] fails with [InvalidInput] on the empty path; on
    any other path it returns the name the spec describes: [L], the first 29
    characters (there are 29: the text has 44) of the URL-safe base64 text of
    the SHA-256 hash of the path, and the last 10 characters of the path,
    with the non-alphanumeric characters removed.  That name is not empty,
    holds only characters of [A-Za-z0-9] and begins with a letter.  Being a
    function of the path alone, the name is the same at every call. *)
Theorem lockNameFromPath_spec :
  lockNameFromPath "" = Err (InvalidInput "path cannot be empty") /\
  forall path : string, path <> "" ->
    lockNameFromPath path = Ok (lock_name_spec path) /\
    String.length
      (first_chars 29 (Base64.EncodeToString (SHA256.Sum (bytes_of_string path)))) = 29%nat /\
    lock_name_spec path <> "" /\
    string_forall alnum (lock_name_spec path) = true /\
    starts_with_letter (lock_name_spec path) = true.
Proof.
  split; [reflexivity|]. intros path Hpath.
  pose proof (sha_text_length path) as Hlen.
  unfold lockNameFromPath, lock_name_spec.
  destruct (String.eqb_spec path ""); [contradiction|].
  rewrite last_chars_slice, <- strip_is_filter.
  generalize dependent (Base64.EncodeToString (SHA256.Sum (bytes_of_string path))).
  intros sha Hlen. rewrite strip_keeps_L.
  split; [reflexivity|]. split.
  { unfold first_chars. apply substring_length. lia. }
  split; [discriminate|]. split.
  - cbn [string_forall]. rewrite strip_alnum. reflexivity.
  - reflexivity.
Qed.

Lemma lockNameFromPath_spec_witness :
  cookie_path <> "" /\
  lockNameFromPath cookie_path = Ok "LpuJSd4zQ2tRas83yVHpTyHn2urJqrcookies".
Proof.
  split; [discriminate|].
  destruct (proj2 lockNameFromPath_spec cookie_path) as [Hname _]; [discriminate|].
  rewrite Hname. vm_compute. reflexivity.
Defined.


(** ** Sorting *)

Section SortFacts.
Context {A : Type} (less : A -> A -> bool).

Hypothesis less_asym : forall a b, less a b = true -> less b a = false.
Hypothesis before_trans :
  forall a b c, before less a b -> before less b c -> before less a c.

Lemma sink_perm (x : A) (back : list A) : sink less x back ≡ₚ x :: back.
Proof.
  induction back as [|y back IH]; simpl; [reflexivity|].
  destruct (less x y); [|reflexivity].
  rewrite IH. apply perm_swap.
Qed.

Lemma sort_Sort_perm (data : list A) : sort_Sort less data ≡ₚ data.
Proof.
  unfold sort_Sort.
  assert (H : forall back, fold_left (fun back x => sink less x back) data back
                           ≡ₚ data ++ back).
  { induction data as [|x data IH]; intros back; simpl; [reflexivity|].
    rewrite IH, sink_perm. symmetry. apply Permutation_middle. }
  rewrite <- Permutation_rev, H, app_nil_r. reflexivity.
Qed.

Lemma sink_sorted (x : A) (back : list A) :
  StronglySorted (flip (before less)) back -> StronglySorted (flip (before less)) (sink less x back).
Proof.
  induction 1 as [|y back Hback IH Hy]; simpl.
  - repeat constructor.
  - destruct (less x y) eqn:Hxy.
    + constructor; [exact IH|].
      rewrite sink_perm. constructor; [|exact Hy].
      unfold flip, before. apply less_asym, Hxy.
    + constructor; [constructor; assumption|].
      constructor; [exact Hxy|].
      eapply Forall_impl; [exact Hy|].
      intros z Hz. unfold flip in *. eapply before_trans; [exact Hz|exact Hxy].
Qed.

Lemma rev_sorted (l : list A) :
  StronglySorted (flip (before less)) l -> StronglySorted (before less) (rev l).
Proof.
  induction 1 as [|y l Hl IH Hy]; simpl; [constructor|].
  apply StronglySorted_app. split; [|split; [exact IH|repeat constructor]].
  intros a b Ha Hb. apply list_elem_of_singleton in Hb as ->.
  rewrite Forall_forall in Hy. apply Hy.
  apply list_elem_of_In, in_rev, list_elem_of_In, Ha.
Qed.

Lemma sort_Sort_sorted (data : list A) : StronglySorted (before less) (sort_Sort less data).
Proof.
  unfold sort_Sort. apply rev_sorted.
  assert (H : forall back, StronglySorted (flip (before less)) back ->
            StronglySorted (flip (before less))
              (fold_left (fun back x => sink less x back) data back)).
  { induction data as [|x data IH]; intros back Hback; simpl; [exact Hback|].
    apply IH, sink_sorted, Hback. }
  apply H. constructor.
Qed.

(** Two orderings of the same items in which no two different items tie
    are sorted to the same list. *)
Lemma sort_Sort_unique (l1 l2 : list A) :
  l1 ≡ₚ l2 ->
  (forall a b, a ∈ l1 -> b ∈ l1 -> before less a b -> before less b a -> a = b) ->
  sort_Sort less l1 = sort_Sort less l2.
Proof.
  intros Hperm Hties.
  apply (StronglySorted_unique_strong (before less)).
  - intros a b Ha Hb. rewrite sort_Sort_perm in Ha. rewrite sort_Sort_perm, <- Hperm in Hb.
    apply Hties; assumption.
  - apply sort_Sort_sorted.
  - apply sort_Sort_sorted.
  - rewrite !sort_Sort_perm. exact Hperm.
Qed.
End SortFacts.

(** The order of records. *)

Lemma Less_true (a b : entry) :
  byCanonicalHost_Less a b = true <->
  String_as_OT.lt (CanonicalGroupKey a) (CanonicalGroupKey b) \/
  (CanonicalGroupKey a = CanonicalGroupKey b /\
   (String.length (Path a) < String.length (Path b))%nat).
Proof.
  unfold byCanonicalHost_Less.
  destruct (String.eqb_spec (CanonicalGroupKey a) (CanonicalGroupKey b)) as [Heq|Hne].
  - rewrite Nat.ltb_lt. split; [auto|]. intros [Hlt|[_ Hlt]]; [|exact Hlt].
    exfalso. exact (String_as_OT.lt_not_eq _ _ Hlt Heq).
  - unfold String.ltb. rewrite <- String_as_OT.cmp_lt. unfold String_as_OT.cmp.
    destruct (String.compare _ _); split; intros H; try discriminate; auto;
      destruct H as [H|[H _]]; try discriminate; contradiction.
Qed.

Lemma Less_false (a b : entry) :
  byCanonicalHost_Less a b = false <->
  String_as_OT.lt (CanonicalGroupKey b) (CanonicalGroupKey a) \/
  (CanonicalGroupKey a = CanonicalGroupKey b /\
   (String.length (Path b) <= String.length (Path a))%nat).
Proof.
  unfold byCanonicalHost_Less.
  destruct (String.eqb_spec (CanonicalGroupKey a) (CanonicalGroupKey b)) as [Heq|Hne].
  - rewrite Nat.ltb_ge. split; [auto|]. intros [Hlt|[_ Hle]]; [|exact Hle].
    exfalso. symmetry in Heq. exact (String_as_OT.lt_not_eq _ _ Hlt Heq).
  - unfold String.ltb. rewrite <- String_as_OT.cmp_lt. unfold String_as_OT.cmp.
    rewrite (String.compare_antisym (CanonicalGroupKey b) (CanonicalGroupKey a)).
    destruct (String.compare (CanonicalGroupKey a) (CanonicalGroupKey b)) eqn:Hc; simpl;
      split; intros H; try discriminate; auto.
    + apply String.compare_eq_iff in Hc. contradiction.
    + destruct H as [H|[H _]]; [discriminate|contradiction].
Qed.

Lemma Less_asym (a b : entry) :
  byCanonicalHost_Less a b = true -> byCanonicalHost_Less b a = false.
Proof.
  rewrite Less_true, Less_false. intros [H|[H1 H2]]; [left; exact H|].
  right. split; [congruence|lia].
Qed.

Lemma before_Less_trans (a b c : entry) :
  before byCanonicalHost_Less a b -> before byCanonicalHost_Less b c ->
  before byCanonicalHost_Less a c.
Proof.
  unfold before. rewrite !Less_false.
  intros [H1|[H1 L1]] [H2|[H2 L2]].
  - left. eapply String_as_OT.lt_trans; eassumption.
  - left. rewrite H2. exact H1.
  - left. rewrite <- H1. exact H2.
  - right. split; [congruence|lia].
Qed.

(** ** The JSON text of records *)

Lemma time_roundtrip (t : Z) :
  match time_MarshalJSON t with
  | JString s => time_UnmarshalJSON s
  | _ => None
  end = Some t.
Proof.
  unfold time_MarshalJSON, time_UnmarshalJSON.
  rewrite NilEmpty.isi, DecimalZ.of_to. reflexivity.
Qed.

Lemma entry_roundtrip (e : entry) :
  entry_UnmarshalJSON (entry_MarshalJSON e) = Some e.
Proof.
  destruct e as [n v d p s h pe ex c].
  pose proof (time_roundtrip ex) as Hex.
  unfold entry_MarshalJSON, entry_UnmarshalJSON; cbn [Name Value Domain Path Secure
    HttpOnly Persistent Expiry CanonicalGroupKey].
  destruct (time_MarshalJSON ex) as [| | |txt| |] eqn:Htxt; try discriminate.
  unfold string_field, bool_field, time_field. cbn. rewrite Hex. reflexivity.
Qed.

Lemma json_roundtrip (l : list entry) :
  json_Unmarshal (json_Marshal l) = Some l.
Proof.
  destruct l as [|e l]; [reflexivity|].
  unfold json_Marshal, json_Unmarshal.
  generalize (e :: l). clear. intros l.
  induction l as [|e l IH]; [reflexivity|].
  cbn [map mapM]. rewrite entry_roundtrip. cbn. rewrite IH. reflexivity.
Qed.

(** ** The visiting order of a map *)

Lemma shuffle_perm {A : Type} (seed : list nat) (l : list A) : shuffle seed l ≡ₚ l.
Proof.
  revert seed. induction l as [|x l IH]; intros seed; simpl; [reflexivity|].
  rewrite <- Permutation_middle, take_drop, IH. reflexivity.
Qed.

(** Every ordering of the items is the visit of some seed. *)
Lemma shuffle_complete {A : Type} (l l' : list A) :
  l ≡ₚ l' -> exists seed, shuffle seed l = l'.
Proof.
  revert l'. induction l as [|x l IH]; intros l' Hperm.
  - apply Permutation_nil in Hperm as ->. exists []. reflexivity.
  - apply Permutation_cons_inv_l in Hperm as (l1 & l2 & -> & Hperm).
    destruct (IH _ Hperm) as [seed Hseed].
    exists (length l1 :: seed). cbn [shuffle hd tl]. rewrite Hseed.
    rewrite Nat.mod_small by (rewrite length_app; lia).
    rewrite take_app_length, drop_app_length. reflexivity.
Qed.

Lemma range_perm {V : Type} (seed : list nat) (m : gmap string V) :
  range seed m ≡ₚ map_to_list m.
Proof. apply shuffle_perm. Qed.

Lemma flat_map_perm {A B : Type} (f g : A -> list B) (l l' : list A) :
  l ≡ₚ l' -> (forall x, f x ≡ₚ g x) -> flat_map f l ≡ₚ flat_map g l'.
Proof.
  intros Hl Hfg. rewrite <- (Permutation_flat_map g Hl).
  clear Hl. induction l as [|x l IH]; simpl; [reflexivity|].
  rewrite IH, Hfg. reflexivity.
Qed.

Lemma visit_perm (o : order) (j : Jar) : visit o j ≡ₚ records j.
Proof.
  unfold visit, records. apply flat_map_perm; [apply range_perm|].
  intros ks. rewrite range_perm. reflexivity.
Qed.

Lemma filter_perm {A : Type} (P : A -> bool) (l l' : list A) :
  l ≡ₚ l' -> List.filter P l ≡ₚ List.filter P l'.
Proof.
  induction 1 as [|x l l' _ IH|x y l|l l' l'' _ IH1 _ IH2]; simpl.
  - reflexivity.
  - destruct (P x); [rewrite IH|]; auto.
  - destruct (P x), (P y); auto. apply perm_swap.
  - etransitivity; eassumption.
Qed.

Lemma found_filter (o : order) (j : Jar) :
  allPersistentEntries o j =
  sort_Sort byCanonicalHost_Less (List.filter Persistent (visit o j)).
Proof.
  unfold allPersistentEntries, visit. f_equal.
  assert (Hin : forall (l : list (string * entry)) acc,
            fold_left (fun acc ie => if Persistent ie.2 then (acc ++ [ie.2])%list else acc) l acc
            = (acc ++ List.filter Persistent l.*2)%list).
  { induction l as [|ie l IH]; intros acc; simpl; [rewrite app_nil_r; reflexivity|].
    rewrite IH. destruct (Persistent ie.2); [|reflexivity].
    rewrite <- app_assoc. reflexivity. }
  assert (Hout : forall (l : list (string * gmap string entry)) acc,
            fold_left
              (fun acc ks =>
                 fold_left (fun acc ie => if Persistent ie.2 then (acc ++ [ie.2])%list else acc)
                           (range (inner o ks.1) ks.2) acc) l acc
            = (acc ++ List.filter Persistent
                        (flat_map (fun ks => (range (inner o ks.1) ks.2).*2) l))%list).
  { induction l as [|ks l IH]; intros acc; simpl; [rewrite app_nil_r; reflexivity|].
    rewrite IH, Hin, List.filter_app, app_assoc. reflexivity. }
  rewrite Hout. reflexivity.
Qed.

Lemma allPersistentEntries_perm (o : order) (j : Jar) :
  allPersistentEntries o j ≡ₚ List.filter Persistent (records j).
Proof.
  rewrite found_filter, sort_Sort_perm. apply filter_perm, visit_perm.
Qed.

Lemma slot_Some (m : gmap string (gmap string entry)) (key id : string) (e : entry) :
  slot m key id = Some e <->
  exists submap, m !! key = Some submap /\ submap !! id = Some e.
Proof.
  unfold slot. destruct (m !! key) as [submap|]; simpl.
  - split; [eauto|]. intros (s' & [= <-] & H). exact H.
  - split; [discriminate|]. intros (s' & [=] & _).
Qed.

Lemma elem_of_records (j : Jar) (e : entry) :
  e ∈ records j <-> exists key id, slot (entries j) key id = Some e.
Proof.
  unfold records. rewrite list_elem_of_In, in_flat_map. split.
  - intros [[key submap] [Hks He]]. simpl in He.
    apply list_elem_of_In, elem_of_map_to_list in Hks.
    apply list_elem_of_In, list_elem_of_fmap in He as [[id e'] [-> Hid]].
    apply elem_of_map_to_list in Hid. exists key, id. apply slot_Some. eauto.
  - intros (key & id & Hslot). apply slot_Some in Hslot as (submap & Hks & He).
    exists (key, submap). split.
    + apply list_elem_of_In, elem_of_map_to_list, Hks.
    + simpl. apply list_elem_of_In, list_elem_of_fmap. exists (id, e). split; [reflexivity|].
      apply elem_of_map_to_list, He.
Qed.

Lemma elem_of_allPersistentEntries (o : order) (j : Jar) (e : entry) :
  e ∈ allPersistentEntries o j <-> e ∈ records j /\ Persistent e = true.
Proof.
  rewrite allPersistentEntries_perm, !list_elem_of_In, filter_In. reflexivity.
Qed.

(** ** The store *)


Section StoreFacts.
Variable record_key : entry -> string.
Variable prefer : entry -> entry -> bool.




Lemma merge_nil (j : Jar) : merge record_key prefer [] j = j.
Proof. destruct j; reflexivity. Qed.





Lemma deleteExpired_slot (now : Z) (j : Jar) (k i : string) (e : entry) :
  slot (entries (deleteExpired now j)) k i = Some e <->
  slot (entries j) k i = Some e /\ now < Expiry e.
Proof.
  unfold deleteExpired, slot; simpl. rewrite lookup_fmap.
  destruct (entries j !! k) as [submap|]; simpl.
  - rewrite map_lookup_filter_Some. reflexivity.
  - split; [discriminate|]. intros [[=] _].
Qed.

Lemma deleteExpired_records (now : Z) (j : Jar) (e : entry) :
  e ∈ records (deleteExpired now j) <-> e ∈ records j /\ now < Expiry e.
Proof.
  rewrite !elem_of_records. split.
  - intros (k & i & H). apply deleteExpired_slot in H as [H Hexp]. eauto.
  - intros [(k & i & H) Hexp]. exists k, i. apply deleteExpired_slot. auto.
Qed.







(** ** [mergeFrom], [save] and [load] *)

Lemma mergeFrom_jar (j : Jar) (f : contents) :
  (mergeFrom record_key prefer j f).1.2 = merge record_key prefer (contents_records f) j.
Proof.
  unfold mergeFrom, contents_records.
  destruct f as [|msg|v]; simpl; try (rewrite merge_nil; reflexivity).
  destruct (json_Unmarshal v); simpl; [reflexivity|rewrite merge_nil; reflexivity].
Qed.

Lemma mergeFrom_error (j j' : Jar) (f : contents) (e : error) (lines : list string) :
  mergeFrom record_key prefer j f = (Err e, j', lines) ->
  j' = j /\ exists msg, f = Malformed msg /\ e = DecodeFailure msg.
Proof.
  unfold mergeFrom. destruct f as [|msg|v]; simpl; try discriminate.
  - intros [= <- <- <-]. eauto.
  - destruct (json_Unmarshal v); discriminate.
Qed.

(** What a successful [save] has done. *)
Lemma save_Ok (now : Z) (sys : os) (o : order) (j j' : Jar) (w w' : world) :
  save record_key prefer now sys o j w = (Ok tt, j', w') ->
  j' = deleteExpired now (merge record_key prefer (snapshot w) j) /\
  file w' = Some (Text (json_Marshal (allPersistentEntries o j'))) /\
  snapshot w' = allPersistentEntries o j' /\
  (exists name, lockFile (held sys) (filename j) = Ok name) /\
  open_error sys = None.
Proof.
  unfold save.
  destruct (lockFile (held sys) (filename j)) as [name|e]; [|discriminate].
  destruct (open_error sys); [discriminate|].
  pose proof (mergeFrom_jar j (default Blank (file w))) as Hj.
  destruct (mergeFrom record_key prefer j (default Blank (file w))) as [[merged j1] lines].
  simpl in Hj. subst j1.
  destruct (truncate_error sys); [discriminate|].
  destruct (seek_error sys); [discriminate|].
  unfold writeTo. destruct (write_error sys) as [[msg torn]|]; [discriminate|].
  intros [= <- <-]. unfold snapshot; simpl.
  split; [reflexivity|]. split; [reflexivity|]. split; [|eauto].
  unfold contents_records. rewrite json_roundtrip. reflexivity.
Qed.


End StoreFacts.

(** ** Order and duplicate facts *)

Lemma before_in_order (a b : entry) : before byCanonicalHost_Less a b <-> in_order a b.
Proof.
  unfold before, in_order. rewrite Less_false. split; intros [H|[H1 H2]]; auto.
Qed.

Lemma in_order_ties (a b : entry) :
  in_order a b -> in_order b a ->
  CanonicalGroupKey a = CanonicalGroupKey b /\
  String.length (Path a) = String.length (Path b).
Proof.
  intros [H1|[H1 L1]] [H2|[H2 L2]].
  - exfalso. apply (String_as_OT.lt_not_eq _ _ (String_as_OT.lt_trans _ _ _ H1 H2)).
    reflexivity.
  - exfalso. apply (String_as_OT.lt_not_eq _ _ H1). congruence.
  - exfalso. apply (String_as_OT.lt_not_eq _ _ H2). congruence.
  - split; [exact H1|lia].
Qed.

Lemma StronglySorted_weaken {A : Type} (R R' : A -> A -> Prop) (l : list A) :
  (forall a b, R a b -> R' a b) -> StronglySorted R l -> StronglySorted R' l.
Proof.
  intros HR. induction 1 as [|x l _ IH Hx]; constructor; [exact IH|].
  eapply Forall_impl; [exact Hx|]. intros b. apply HR.
Qed.



Section Persistence.
Variable record_key : entry -> string.
Variable prefer : entry -> entry -> bool.



(** The records in the file a successful [save] leaves. *)
Lemma save_snapshot (now : Z) (sys : os) (o : order) (j j' : Jar) (w w' : world)
    (e : entry) :
  save record_key prefer now sys o j w = (Ok tt, j', w') ->
  e ∈ snapshot w' <->
  e ∈ records (merge record_key prefer (snapshot w) j) /\
  now < Expiry e /\ Persistent e = true.
Proof.
  intros Hsave. apply save_Ok in Hsave as (-> & _ & -> & _).
  rewrite elem_of_allPersistentEntries, deleteExpired_records. tauto.
Qed.


(** C5.  Non-persistent exclusion: whatever the jar holds, the file a
    successful [save] leaves holds only records whose [Persistent] flag is
    set; a record whose flag is not set is not in it, whatever its
    expiry. *)
Theorem save_writes_only_persistent (now : Z) (sys : os) (o : order)
    (j j' : Jar) (w w' : world) :
  save record_key prefer now sys o j w = (Ok tt, j', w') ->
  (forall e, e ∈ snapshot w' -> Persistent e = true) /\
  (forall e, Persistent e = false -> e ∉ snapshot w').
Proof.
  intros Hsave. split.
  - intros e He. apply (save_snapshot _ _ _ _ _ _ _ _ Hsave) in He. tauto.
  - intros e Hp He. apply (save_snapshot _ _ _ _ _ _ _ _ Hsave) in He.
    destruct He as (_ & _ & He). congruence.
Qed.


(** C10.  Load atomicity: when [load] returns an error the jar is the one
    it was given.  [mergeFrom] reaches the store's [merge] only after
    [Decode] and [Unmarshal] have both succeeded, and an error of
    [mergeFrom] is a decode error of a malformed file. *)
Theorem load_error_leaves_jar (sys : os) (j j' : Jar) (w w' : world) (e : error) :
  load record_key prefer sys j w = (Err e, j', w') ->
  j' = j /\
  forall f j1 lines err,
    mergeFrom record_key prefer j f = (Err err, j1, lines) ->
    j1 = j /\ exists msg, f = Malformed msg /\ err = DecodeFailure msg.
Proof.
  intros Hload. split; [|intros f j1 lines err; apply mergeFrom_error].
  unfold load in Hload.
  destruct (lockFile (held sys) (filename j)); [|injection Hload; auto].
  destruct (file w) as [f|]; [|discriminate].
  destruct (open_error sys); [injection Hload; auto|].
  destruct (mergeFrom record_key prefer j f) as [[[[]|err] j1] lines] eqn:Hm;
    [discriminate|].
  injection Hload as _ <- _. apply mergeFrom_error in Hm as [-> _]. reflexivity.
Qed.


(** C3, as the code has it.  The file lists the persistent records of the
    jar, ordered by canonical group key ascending and then by path length
    ascending.  When no two different persistent records have both the
    same group key and the same path length, every visiting order of the
    map gives the same text.  (Records that tie are written in an order
    that depends on the order in which the map was visited.) *)
Theorem serialization_order (sys : os) (o1 o2 : order) (j : Jar) :
  (forall a b, a ∈ records j -> b ∈ records j ->
     Persistent a = true -> Persistent b = true ->
     CanonicalGroupKey a = CanonicalGroupKey b ->
     String.length (Path a) = String.length (Path b) -> a = b) ->
  writeTo sys o1 j = writeTo sys o2 j /\
  StronglySorted in_order (allPersistentEntries o1 j) /\
  allPersistentEntries o1 j ≡ₚ List.filter Persistent (records j).
Proof.
  clear record_key prefer.
  intros Hties. split; [|split; [|apply allPersistentEntries_perm]].
  - unfold writeTo. rewrite !found_filter.
    rewrite (sort_Sort_unique byCanonicalHost_Less Less_asym before_Less_trans
               (List.filter Persistent (visit o1 j))
               (List.filter Persistent (visit o2 j))); [reflexivity| |].
    + apply filter_perm. rewrite !visit_perm. reflexivity.
    + intros a b Ha Hb Hab Hba.
      apply list_elem_of_In, filter_In in Ha as [Ha Hpa].
      apply list_elem_of_In, filter_In in Hb as [Hb Hpb].
      apply list_elem_of_In in Ha, Hb. rewrite visit_perm in Ha, Hb.
      apply before_in_order in Hab, Hba.
      destruct (in_order_ties a b Hab Hba). apply Hties; assumption.
  - rewrite found_filter.
    eapply StronglySorted_weaken; [|apply (sort_Sort_sorted _ Less_asym before_Less_trans)].
    intros a b. apply before_in_order.
Qed.


End Persistence.

(** ** The properties at sample inputs *)


Lemma runS_Ok : runS = (Ok tt, runS.1.2, runS.2).
Proof. vm_compute. reflexivity. Qed.




Lemma save_writes_only_persistent_witness :
  Persistent cookieSession = false /\ (cookieSession ∉ snapshot (runS.2)).
Proof.
  split; [reflexivity|].
  apply (save_writes_only_persistent name_key newer_wins 10 quiet canonical jarA
           (runS.1.2) no_file (runS.2) runS_Ok).
  reflexivity.
Defined.


Lemma load_error_leaves_jar_witness :
  (load name_key newer_wins quiet jarA garbled).1.2 = jarA.
Proof.
  apply (load_error_leaves_jar name_key newer_wins quiet jarA
           (load name_key newer_wins quiet jarA garbled).1.2 garbled
           (load name_key newer_wins quiet jarA garbled).2
           (DecodeFailure "invalid character")).
  vm_compute. reflexivity.
Defined.


(** C3, as the spec has it, fails: the jar holds the same two records
    whichever is added first, and two visits of its map in different orders
    write different texts. *)
Lemma deterministic_order_counterexample :
  put name_key cookieZ (put name_key cookieY (newJar cookie_path))
  = put name_key cookieY (put name_key cookieZ (newJar cookie_path)) /\
  writeTo quiet one_visit jarYZ <> writeTo quiet other_visit jarYZ.
Proof.
  split; [vm_compute; reflexivity|]. vm_compute. discriminate.
Qed.

Lemma serialization_order_witness :
  writeTo quiet one_visit jarA = writeTo quiet other_visit jarA.
Proof.
  apply (serialization_order quiet one_visit other_visit jarA).
  assert (Hrec : records jarA = [cookieOld; cookieSession; cookieX])
    by (vm_compute; reflexivity).
  intros a b Ha Hb. rewrite Hrec in Ha, Hb. apply list_elem_of_In in Ha, Hb.
  destruct Ha as [<-|[<-|[<-|[]]]], Hb as [<-|[<-|[<-|[]]]];
    intros Hpa Hpb Hk Hl; try reflexivity; discriminate.
Defined.

(** C9.  The code at a jar without persistent records: the file that
    [save] leaves holds the JSON value [null], not an array. *)
Theorem save_empty_jar_writes_null :
  save name_key newer_wins 10 quiet canonical (newJar cookie_path) no_file
  = (Ok tt, newJar cookie_path, World (Some (Text JNull)) []).
Proof. vm_compute. reflexivity. Qed.



(** * Further properties *)

(** ** The retry loop *)

Lemma retryLoop_stops (name : string) (retry : Z) (before after : list attempt)
    (a : attempt) :
  Forall (fun b => ends_loop b = false) before -> ends_loop a = true ->
  exists slept,
    retryLoop name retry (before ++ a :: after) = (Some (verdict name a), slept) /\
    length slept = length before.
Proof.
  intros Hbefore Ha. revert retry.
  induction Hbefore as [|b before Hb _ IH]; intros retry; simpl.
  - destruct a as [|err total]; simpl in *; [eauto|]. rewrite Ha. eauto.
  - destruct b as [|err total]; simpl in Hb; [discriminate|]. rewrite Hb.
    destruct (IH (if maxRetryDuration - total <? retry
                  then maxRetryDuration - total else retry)) as (slept & -> & Hlen).
    eexists. split; [reflexivity|]. simpl. rewrite Hlen. reflexivity.
Qed.

Lemma retryLoop_unfinished (name : string) (retry : Z) (calls : list attempt) :
  Forall (fun b => ends_loop b = false) calls ->
  exists slept, retryLoop name retry calls = (None, slept) /\ length slept = length calls.
Proof.
  intros Hcalls. revert retry.
  induction Hcalls as [|b calls Hb _ IH]; intros retry; simpl; [eauto|].
  destruct b as [|err total]; simpl in Hb; [discriminate|]. rewrite Hb.
  destruct (IH (if maxRetryDuration - total <? retry
                then maxRetryDuration - total else retry)) as (slept & -> & Hlen).
  eexists. split; [reflexivity|]. simpl. rewrite Hlen. reflexivity.
Qed.

(** The calls up to the first one that ends the loop. *)
Lemma first_end (calls : list attempt) :
  Forall (fun b => ends_loop b = false) calls \/
  exists before a after,
    calls = (before ++ a :: after)%list /\
    Forall (fun b => ends_loop b = false) before /\ ends_loop a = true.
Proof.
  induction calls as [|b calls IH]; [left; constructor|].
  destruct (ends_loop b) eqn:Hb.
  - right. exists [], b, calls. split; [reflexivity|]. split; [constructor|exact Hb].
  - destruct IH as [IH|(before & a & after & -> & Hbefore & Ha)].
    + left. constructor; assumption.
    + right. exists (b :: before), a, after. split; [reflexivity|].
      split; [constructor; assumption|exact Ha].
Qed.

Lemma Forall2_right {A B : Type} (P : A -> B -> Prop) (Q : B -> Prop)
    (l : list A) (k : list B) :
  (forall a b, P a b -> Q b) -> Forall2 P l k -> Forall Q k.
Proof. intros HPQ. induction 1; constructor; eauto. Qed.

Lemma retryLoop_sleeps (name : string) (retry : Z) (calls : list attempt)
    (r : option (result string)) (slept : list Z) :
  0 <= retry -> retryLoop name retry calls = (r, slept) ->
  Forall2 (fun a d => exists err total,
             a = Failed err total /\ total <= maxRetryDuration /\
             0 <= d /\ d <= retry /\ total + d <= maxRetryDuration)
          (take (length slept) calls) slept /\
  StronglySorted Z.ge slept.
Proof.
  revert retry r slept. induction calls as [|a calls IH]; intros retry r slept Hretry Hrun.
  - injection Hrun as <- <-. split; constructor.
  - destruct a as [|err total]; simpl in Hrun.
    + injection Hrun as <- <-. split; constructor.
    + destruct (maxRetryDuration <? total) eqn:Hlate.
      * injection Hrun as <- <-. split; constructor.
      * apply Z.ltb_ge in Hlate.
        set (retry' := if maxRetryDuration - total <? retry
                       then maxRetryDuration - total else retry) in *.
        assert (Hretry' : 0 <= retry' /\ retry' <= retry /\
                          total + retry' <= maxRetryDuration).
        { unfold retry'. destruct (Z.ltb_spec (maxRetryDuration - total) retry); lia. }
        destruct (retryLoop name retry' calls) as [r' slept'] eqn:Hrest.
        injection Hrun as <- <-.
        destruct (IH retry' r' slept' (proj1 Hretry') Hrest) as [Hall Hsorted].
        split.
        -- simpl. constructor; [exists err, total; repeat split; lia|].
           eapply Forall2_impl; [exact Hall|].
           intros b d (err' & total' & -> & ? & ? & ? & ?).
           exists err', total'. repeat split; lia.
        -- constructor; [exact Hsorted|].
           eapply Forall2_right; [|exact Hall].
           intros b d (err' & total' & _ & _ & _ & ? & _). simpl. lia.
Qed.

Lemma Failed_reading (calls : list attempt) (i : nat) (err : string) (total : Z) :
  calls !! i = Some (Failed err total) -> total ∈ readings calls.
Proof.
  revert i. induction calls as [|a calls IH]; intros i Hi; [discriminate|].
  destruct i as [|i]; simpl in Hi.
  - injection Hi as ->. simpl. left.
  - destruct a; simpl; [|right]; eapply IH; exact Hi.
Qed.

Lemma retryLoop_sleep_min (name : string) (retry : Z) (calls : list attempt)
    (r : option (result string)) (slept : list Z) :
  StronglySorted Z.le (readings calls) ->
  retryLoop name retry calls = (r, slept) ->
  forall i err total d,
    calls !! i = Some (Failed err total) -> slept !! i = Some d ->
    d = Z.min retry (maxRetryDuration - total).
Proof.
  revert retry r slept. induction calls as [|a calls IH];
    intros retry r slept Hclock Hrun i err total d Hi Hd; [discriminate|].
  destruct a as [|err0 total0]; simpl in Hrun.
  - injection Hrun as <- <-. discriminate.
  - destruct (maxRetryDuration <? total0) eqn:Hlate.
    + injection Hrun as <- <-. discriminate.
    + set (retry' := if maxRetryDuration - total0 <? retry
                     then maxRetryDuration - total0 else retry) in *.
      assert (Hmin : retry' = Z.min retry (maxRetryDuration - total0)).
      { unfold retry'. destruct (Z.ltb_spec (maxRetryDuration - total0) retry); lia. }
      destruct (retryLoop name retry' calls) as [r' slept'] eqn:Hrest.
      injection Hrun as <- <-. simpl in Hclock. inversion Hclock as [|? ? Hclock' Hle]; subst.
      destruct i as [|i]; simpl in Hi, Hd.
      * injection Hi as <- <-. injection Hd as <-. exact Hmin.
      * rewrite (IH retry' r' slept' Hclock' Hrest i err total d Hi Hd).
        apply Failed_reading in Hi. rewrite Forall_forall in Hle.
        specialize (Hle total Hi). lia.
Qed.

(** ** More on the lock name *)

Lemma append_empty_l (s : string) : "" ++ s = s.
Proof. reflexivity. Qed.

Lemma length_append (s1 s2 : string) :
  String.length (s1 ++ s2) = (String.length s1 + String.length s2)%nat.
Proof. induction s1 as [|c s1 IH]; simpl; [reflexivity|]. rewrite IH. reflexivity. Qed.

Lemma length_substring (n m : nat) (s : string) :
  (String.length (substring n m s) <= m)%nat.
Proof.
  revert n m. induction s as [|c s IH]; intros [|n] [|m]; simpl; try lia.
  - specialize (IH 0%nat m). lia.
  - apply IH.
  - apply IH.
Qed.

Lemma length_strip (s : string) :
  (String.length (re_ReplaceAllLiteralString s) <= String.length s)%nat.
Proof.
  induction s as [|c s IH]; simpl; [lia|]. destruct (alnum c); simpl; lia.
Qed.



(** X1.  A lock name has at least 1 and at most 40 characters: the letter
    [L], at most 29 characters of the hash text and at most 10 of the
    path. *)
Theorem lockName_length (path name : string) :
  lockNameFromPath path = Ok name ->
  (1 <= String.length name <= 40)%nat.
Proof.
  unfold lockNameFromPath. destruct (String.eqb path ""); [discriminate|].
  rewrite last_chars_slice.
  generalize (Base64.EncodeToString (SHA256.Sum (bytes_of_string path))). intros sha.
  intros [= <-]. rewrite append_empty_l. cbn [String.length].
  pose proof (length_strip (substring 0 29 sha ++ last_chars 10 path)) as Hstrip.
  rewrite length_append in Hstrip.
  pose proof (length_substring 0 29 sha).
  pose proof (length_substring (String.length path - 10) 10 path).
  unfold last_chars in *. lia.
Qed.

Lemma lockName_length_witness :
  (1 <= String.length "LpuJSd4zQ2tRas83yVHpTyHn2urJqrcookies" <= 40)%nat.
Proof.
  apply (lockName_length cookie_path). vm_compute. reflexivity.
Defined.



Lemma lockName_error (path : string) (e : error) :
  lockNameFromPath path = Err e ->
  path = "" /\ e = InvalidInput "path cannot be empty".
Proof.
  unfold lockNameFromPath. destruct (String.eqb_spec path ""); [|discriminate].
  intros [= <-]. auto.
Qed.

(** ** The retry loop of [lockFile] *)

(** X3.  [lockFile] gives up only past the deadline.  When it returns an
    error, either the path is empty (and then no call was made and nothing
    was slept), or some call failed and the clock then read more than
    [maxRetryDuration]: the error wraps the error of that call, every call
    before it failed with the clock at or before the deadline, and one
    sleep was made after each of them. *)
Theorem lockFile_gives_up_after_deadline (path : string) (calls : list attempt)
    (e : error) (slept : list Z) :
  lockFileRun path calls = (Some (Err e), slept) ->
  (path = "" /\ e = InvalidInput "path cannot be empty" /\ slept = []) \/
  exists before err total after,
    calls = (before ++ Failed err total :: after)%list /\
    e = LockTimeout ("file locked for too long; giving up: " ++ err) /\
    maxRetryDuration < total /\
    Forall (fun b => exists err' total',
              b = Failed err' total' /\ total' <= maxRetryDuration) before /\
    length slept = length before.
Proof.
  unfold lockFileRun.
  destruct (lockNameFromPath path) as [name|e'] eqn:Hname.
  2:{ intros [= <- <-]. left. apply lockName_error in Hname. tauto. }
  intros Hrun. right.
  destruct (first_end calls) as [Hnone|(before & a & after & -> & Hbefore & Ha)].
  - destruct (retryLoop_unfinished name initialRetry calls Hnone) as (slept' & Hrun' & _).
    rewrite Hrun' in Hrun. discriminate.
  - destruct (retryLoop_stops name initialRetry before after a Hbefore Ha)
      as (slept' & Hrun' & Hlen).
    rewrite Hrun' in Hrun. injection Hrun as Hv <-.
    destruct a as [|err total]; simpl in Hv, Ha; [discriminate|]. injection Hv as <-.
    exists before, err, total, after. split; [reflexivity|]. split; [reflexivity|].
    split; [apply Z.ltb_lt, Ha|]. split; [|exact Hlen].
    eapply Forall_impl; [exact Hbefore|].
    intros [|err' total'] Hb; simpl in Hb; [discriminate|].
    exists err', total'. split; [reflexivity|]. apply Z.ltb_ge, Hb.
Qed.

Lemma lockFile_gives_up_after_deadline_witness :
  exists before err total after,
    busy_calls = (before ++ Failed err total :: after)%list /\
    maxRetryDuration < total /\ length before = 2%nat.
Proof.
  destruct (lockFile_gives_up_after_deadline cookie_path busy_calls
              (LockTimeout "file locked for too long; giving up: lock busy")
              [100000; 50000])
    as [(Hpath & _)|(before & err & total & after & Hcalls & _ & Hlate & _ & Hlen)].
  - vm_compute. reflexivity.
  - discriminate Hpath.
  - exists before, err, total, after. auto.
Defined.

(** X4.  Every sleep of the loop follows a call that failed with the clock
    at or before the deadline; it is not negative, lasts at most the
    retry interval of 100 microseconds and ends, counted from the clock
    reading that precedes it, at or before the deadline.  No sleep is
    longer than the one before it. *)
Theorem lockFile_sleeps_bounded (path : string) (calls : list attempt)
    (r : option (result string)) (slept : list Z) :
  lockFileRun path calls = (r, slept) ->
  Forall2 (fun a d => exists err total,
             a = Failed err total /\ total <= maxRetryDuration /\
             0 <= d /\ d <= initialRetry /\ total + d <= maxRetryDuration)
          (take (length slept) calls) slept /\
  StronglySorted Z.ge slept.
Proof.
  unfold lockFileRun. destruct (lockNameFromPath path) as [name|e].
  - apply retryLoop_sleeps. unfold initialRetry. lia.
  - intros [= <- <-]. split; constructor.
Qed.

Lemma lockFile_sleeps_bounded_witness : StronglySorted Z.ge [100000; 50000].
Proof.
  apply (lockFile_sleeps_bounded cookie_path busy_calls
           (Some (Err (LockTimeout "file locked for too long; giving up: lock busy")))).
  vm_compute. reflexivity.
Defined.

(** X5.  With a clock that does not go backwards, the sleep after a failed
    call is the retry interval of 100 microseconds, or the time left to the
    deadline when that is less. *)
Theorem lockFile_sleep_is_min (path : string) (calls : list attempt)
    (r : option (result string)) (slept : list Z) (i : nat) (err : string)
    (total d : Z) :
  StronglySorted Z.le (readings calls) ->
  lockFileRun path calls = (r, slept) ->
  calls !! i = Some (Failed err total) -> slept !! i = Some d ->
  d = Z.min initialRetry (maxRetryDuration - total).
Proof.
  unfold lockFileRun. destruct (lockNameFromPath path) as [name|e].
  - intros Hclock Hrun. eapply retryLoop_sleep_min; eassumption.
  - intros _ [= <- <-] _. discriminate.
Qed.

Lemma lockFile_sleep_is_min_witness :
  50000 = Z.min initialRetry (maxRetryDuration - 1999950000).
Proof.
  apply (lockFile_sleep_is_min cookie_path busy_calls
           (Some (Err (LockTimeout "file locked for too long; giving up: lock busy")))
           [100000; 50000] 1 "lock busy").
  - simpl. repeat constructor; lia.
  - vm_compute. reflexivity.
  - reflexivity.
  - reflexivity.
Defined.

(** X6.  The loop ends at the first call that obtains the lock or that
    fails with the clock past the deadline: with the lock in the first
    case, with the timeout error in the second, after one sleep for each
    call before it; the calls listed after it are not made.  Calls that
    all fail at or before the deadline do not end it. *)
Theorem lockFile_stops_at_first_end (path name : string) (before after : list attempt)
    (a : attempt) :
  lockNameFromPath path = Ok name ->
  Forall (fun b => ends_loop b = false) before ->
  (ends_loop a = true ->
   exists slept,
     lockFileRun path (before ++ a :: after) = (Some (verdict name a), slept) /\
     length slept = length before) /\
  exists slept,
    lockFileRun path before = (None, slept) /\ length slept = length before.
Proof.
  intros Hname Hbefore. unfold lockFileRun. rewrite Hname. split.
  - intros Ha. apply retryLoop_stops; assumption.
  - apply retryLoop_unfinished. exact Hbefore.
Qed.

Lemma lockFile_stops_at_first_end_witness :
  exists slept,
    lockFileRun cookie_path ([Failed "lock busy" 10] ++ Acquired :: busy_calls)
    = (Some (Ok "LpuJSd4zQ2tRas83yVHpTyHn2urJqrcookies"), slept) /\
    length slept = 1%nat.
Proof.
  destruct (lockFile_stops_at_first_end cookie_path
              "LpuJSd4zQ2tRas83yVHpTyHn2urJqrcookies"
              [Failed "lock busy" 10] busy_calls Acquired) as [Hstop _].
  - vm_compute. reflexivity.
  - repeat constructor.
  - apply Hstop. reflexivity.
Defined.

(** X7.  [lockFile], which [save] and [load] use, has the results of the
    loop and no others: a finished run returns what [lockFile] returns for
    some state of the locks, and whatever the state of the locks some run
    returns what [lockFile] returns. *)
Theorem lockFile_abstracts_run (path : string) :
  (forall calls r slept,
     lockFileRun path calls = (Some r, slept) ->
     exists held : locks, lockFile held path = r) /\
  (forall held : locks,
     exists calls slept, lockFileRun path calls = (Some (lockFile held path), slept)).
Proof.
  unfold lockFileRun, lockFile. destruct (lockNameFromPath path) as [name|e].
  - split.
    + intros calls r slept Hrun.
      destruct (first_end calls) as [Hnone|(before & a & after & -> & Hbefore & Ha)].
      * destruct (retryLoop_unfinished name initialRetry calls Hnone) as (slept' & Hrun' & _).
        rewrite Hrun' in Hrun. discriminate.
      * destruct (retryLoop_stops name initialRetry before after a Hbefore Ha)
          as (slept' & Hrun' & _).
        rewrite Hrun' in Hrun. injection Hrun as <- _.
        destruct a as [|err total]; simpl.
        -- exists (fun _ => None). reflexivity.
        -- exists (fun _ => Some err). reflexivity.
    + intros held. destruct (held name) as [cause|].
      * exists [Failed cause (maxRetryDuration + 1)], []. reflexivity.
      * exists [Acquired], []. reflexivity.
  - split.
    + intros calls r slept [= <- _]. exists (fun _ => None). reflexivity.
    + intros held. exists [], []. reflexivity.
Qed.

Lemma lockFile_abstracts_run_witness :
  exists held : locks,
    lockFile held cookie_path
    = Err (LockTimeout "file locked for too long; giving up: lock busy").
Proof.
  apply (proj1 (lockFile_abstracts_run cookie_path) busy_calls _ [100000; 50000]).
  vm_compute. reflexivity.
Defined.

(** ** More on [save] and [load] *)

Lemma lockFile_error (held : locks) (path : string) (e : error) :
  lockFile held path = Err e ->
  e = InvalidInput "path cannot be empty" \/ exists cause, e = LockTimeout cause.
Proof.
  unfold lockFile. destruct (lockNameFromPath path) as [name|e'] eqn:Hname.
  - destruct (held name); [|discriminate]. intros [= <-]. eauto.
  - intros [= <-]. apply lockName_error in Hname. tauto.
Qed.


Section MoreStoreFacts.
Variable record_key : entry -> string.
Variable prefer : entry -> entry -> bool.






(** X9.  Kinds of errors.  [save] never returns a decode error, whatever
    the file holds; [load] returns one only when the file is malformed, and
    then it is the error of the decoder. *)
Theorem decode_errors_only_from_load (sys : os) (j j' : Jar) (w w' : world) :
  (forall now o e, save record_key prefer now sys o j w = (Err e, j', w') ->
                   forall msg, e <> DecodeFailure msg) /\
  (forall msg, load record_key prefer sys j w = (Err (DecodeFailure msg), j', w') ->
               file w = Some (Malformed msg)).
Proof.
  split.
  - intros now o e Hsave msg ->. unfold save in Hsave.
    destruct (lockFile (held sys) (filename j)) as [name|e'] eqn:Hlock.
    2:{ injection Hsave as ->. apply lockFile_error in Hlock as [Hl|[c Hl]]; discriminate. }
    destruct (open_error sys); [discriminate|].
    destruct (mergeFrom record_key prefer j (default Blank (file w))) as [[merged j1] lines].
    destruct (truncate_error sys); [discriminate|].
    destruct (seek_error sys); [discriminate|].
    unfold writeTo in Hsave. destruct (write_error sys) as [[m torn]|]; discriminate.
  - intros msg Hload. unfold load in Hload.
    destruct (lockFile (held sys) (filename j)) as [name|e'] eqn:Hlock.
    2:{ injection Hload as ->. apply lockFile_error in Hlock as [Hl|[c Hl]]; discriminate. }
    destruct (file w) as [f|]; [|discriminate].
    destruct (open_error sys); [discriminate|].
    destruct (mergeFrom record_key prefer j f) as [[merged j1] lines] eqn:Hm.
    injection Hload as -> _ _.
    apply mergeFrom_error in Hm as [_ (msg' & -> & [= ->])]. reflexivity.
Qed.

(** X10.  [load] never writes: whatever it returns, the file holds what it
    held; and when there is no file and the lock is obtained, it returns no
    error and leaves the jar and the log as they were. *)
Theorem load_never_writes (sys : os) (j j' : Jar) (w w' : world) (r : result unit) :
  load record_key prefer sys j w = (r, j', w') ->
  file w' = file w /\
  (file w = None ->
   (exists name, lockFile (held sys) (filename j) = Ok name) ->
   r = Ok tt /\ j' = j /\ w' = w).
Proof.
  unfold load.
  destruct (lockFile (held sys) (filename j)) as [name|e].
  2:{ intros [= <- <- <-]. split; [reflexivity|]. intros _ [name [=]]. }
  destruct (file w) as [f|] eqn:Hfile.
  - destruct (open_error sys).
    + intros [= <- <- <-]. split; [exact Hfile|discriminate].
    + destruct (mergeFrom record_key prefer j f) as [[merged j1] lines].
      intros [= <- <- <-]. split; [reflexivity|discriminate].
  - intros [= <- <- <-]. split; [exact Hfile|]. auto.
Qed.




(** X15.  The text [save] writes.  After a successful [save] the file
    holds the JSON value [null] when the jar holds no persistent record,
    and otherwise an array with one object for each persistent record of
    the jar. *)
Theorem save_file_shape (now : Z) (sys : os) (o : order) (j j' : Jar) (w w' : world) :
  save record_key prefer now sys o j w = (Ok tt, j', w') ->
  ((forall e, e ∈ records j' -> Persistent e = false) ->
   file w' = Some (Text JNull)) /\
  ((exists e, e ∈ records j' /\ Persistent e = true) ->
   exists items,
     file w' = Some (Text (JArray items)) /\
     length items = length (List.filter Persistent (records j')) /\
     Forall (fun v => exists e, v = entry_MarshalJSON e /\
                                e ∈ records j' /\ Persistent e = true) items).
Proof.
  intros Hsave. apply save_Ok in Hsave as (_ & Hfile & _).
  pose proof (allPersistentEntries_perm o j') as Hperm.
  assert (Hmem : forall e, e ∈ allPersistentEntries o j' ->
                           e ∈ records j' /\ Persistent e = true)
    by (intros e; apply elem_of_allPersistentEntries).
  rewrite Hfile. destruct (allPersistentEntries o j') as [|e0 l] eqn:Hl; split.
  - reflexivity.
  - intros (e & He & Hp). exfalso.
    assert (Hin : e ∈ List.filter Persistent (records j'))
      by (apply list_elem_of_In, filter_In; split; [apply list_elem_of_In, He|exact Hp]).
    rewrite <- Hperm in Hin. inversion Hin.
  - intros Hnone. exfalso. destruct (Hmem e0) as [He0 Hp0]; [left|].
    rewrite (Hnone e0 He0) in Hp0. discriminate.
  - intros _. exists (map entry_MarshalJSON (e0 :: l)). split; [reflexivity|]. split.
    + rewrite length_map. apply Permutation_length, Hperm.
    + apply Forall_forall. intros v Hv.
      apply list_elem_of_In, in_map_iff in Hv as (e & <- & He).
      exists e. split; [reflexivity|]. apply Hmem, list_elem_of_In, He.
Qed.
End MoreStoreFacts.

(** ** The further properties at sample inputs *)



Lemma quiet_lock : lockFile (held quiet) cookie_path = Ok "LpuJSd4zQ2tRas83yVHpTyHn2urJqrcookies".
Proof. vm_compute. reflexivity. Qed.


Lemma decode_errors_only_from_load_witness :
  file garbled = Some (Malformed "invalid character").
Proof.
  apply (proj2 (decode_errors_only_from_load name_key newer_wins quiet jarA
                  (load name_key newer_wins quiet jarA garbled).1.2 garbled
                  (load name_key newer_wins quiet jarA garbled).2)).
  vm_compute. reflexivity.
Defined.

Lemma load_never_writes_witness :
  (load name_key newer_wins quiet jarA no_file).1.1 = Ok tt /\
  (load name_key newer_wins quiet jarA no_file).1.2 = jarA.
Proof.
  destruct (load_never_writes name_key newer_wins quiet jarA
              (load name_key newer_wins quiet jarA no_file).1.2 no_file
              (load name_key newer_wins quiet jarA no_file).2
              (load name_key newer_wins quiet jarA no_file).1.1) as [_ Hnone].
  - vm_compute. reflexivity.
  - destruct Hnone as (Hr & Hj & _);
      [reflexivity|exists "LpuJSd4zQ2tRas83yVHpTyHn2urJqrcookies"; exact quiet_lock|].
    split; assumption.
Defined.





Lemma save_file_shape_witness :
  exists items, file (runS.2) = Some (Text (JArray items)) /\ length items = 1%nat.
Proof.
  destruct (save_file_shape name_key newer_wins 10 quiet canonical jarA
              (runS.1.2) no_file (runS.2) runS_Ok) as [_ Harray].
  destruct Harray as (items & Hfile & Hlen & _).
  - exists cookieX. split; [|reflexivity].
    assert (Hrec : records (runS.1.2) = [cookieSession; cookieX])
      by (vm_compute; reflexivity).
    rewrite Hrec. right. left.
  - exists items. split; [exact Hfile|]. rewrite Hlen.
    assert (Hrec : records (runS.1.2) = [cookieSession; cookieX])
      by (vm_compute; reflexivity).
    rewrite Hrec. reflexivity.
Defined.
